(** * streams: the processor pipe (pipe.go)

    A shallow embedding of [processorPipe] and of its methods [Reset],
    [Duration], [Forward], [ForwardToChild], [Commit] and [time], with the
    properties of the routing node proved about it.

    The pipe calls into collaborators that pipe.go only names: the children
    ([Pump], method [Process]), the sources of a message ([Source], method
    [Commit]), the message ([Metadata]), the clock ([time.Now],
    [time.Since]) and the runtime's iteration over a map.  They are the
    fields of the class [Collaborators].  A collaborator is a function on
    the environment, the state of everything outside the pipe; it returns,
    and it has no hold on the pipe itself.  A [nil] child or source, on
    which the call itself would panic, is not among them.

    Every call of [Process] or [Commit] goes through [call_Process] or
    [call_Commit], which runs the collaborator on the environment and
    appends the call, with what it returned, to the list of calls made so
    far.  What the pipe "invokes" is read off that list.

    [p.duration] is a [time.Duration], an [int64]: [+=] wraps.  The clock
    is Go's monotonic clock: a reading is an [int64] count of nanoseconds,
    never negative, and [time.Since] is the difference of two readings. *)

From Stdlib Require Import ZArith String.
From stdpp Require Import base list gmap.

Local Open Scope Z_scope.

(** ** [time.Duration]: a signed 64-bit count of nanoseconds *)

Module Int64.

Definition min_int : Z := - 2 ^ 63.
Definition max_int : Z := 2 ^ 63 - 1.
Definition modulus : Z := 2 ^ 64.

(** The value an [int64] holds after an operation whose exact result is [z]. *)
Definition wrap (z : Z) : Z := (z + 2 ^ 63) mod modulus - 2 ^ 63.

(** Go's [+] on [int64]. *)
Definition add (a b : Z) : Z := wrap (a + b).

Definition in_range (z : Z) : Prop := min_int <= z <= max_int.

End Int64.

(** ** Values of the Go runtime *)

(** A non-nil [error]: either the one pipe.go creates with [errors.New], or
    one that a collaborator made. *)
Inductive error_value (Err : Type) : Type :=
| errors_New (message : string)
| collaborator_error (e : Err).
Arguments errors_New {Err} message.
Arguments collaborator_error {Err} e.

(** Go's [error]: [None] is [nil]. *)
Definition error (Err : Type) : Type := option (error_value Err).

(** A run-time panic of the pipe's own code: indexing a slice of length [len]
    at [index]. *)
Inductive panic : Type :=
| index_out_of_range (index : Z) (len : nat).

(** How a call of a method with result type [error] ends. *)
Inductive outcome (Err : Type) : Type :=
| Returns (err : error Err)
| Panics (p : panic).
Arguments Returns {Err} err.
Arguments Panics {Err} p.

(** [s[i]] for a slice [s] and an [int] [i]: [None] stands for the run-time
    panic. *)
Definition slice_index {A : Type} (s : list A) (i : Z) : option A :=
  if i <? 0 then None else s !! Z.to_nat i.

(** ** Collaborators

    What pipe.go takes from the rest of the package, from the [time] package
    and from the runtime.  [Env] is the state of everything outside the pipe:
    the processors behind the children, the sources, the clock. *)

Class Collaborators : Type := {
  Pump : Type;
  Source : Type;
  Token : Type;
  Message : Type;
  Err : Type;
  Time : Type;
  Env : Type;
  Source_eq_dec :: EqDecision Source;
  Source_countable :: Countable Source;
  (** [msg.Metadata()]: the sources of a message with their tokens. *)
  Metadata : Message -> gmap Source Token;
  (** [child.Process(msg)], run on the environment. *)
  pump_Process : Pump -> Message -> Env -> error Err * Env;
  (** [s.Commit(v)], run on the environment. *)
  source_Commit : Source -> Token -> Env -> error Err * Env;
  (** [time.Now()] and [time.Since(t)], read from the environment. *)
  time_Now : Env -> Time;
  time_Since : Time -> Env -> Z;
  (** [range m] over a Go map: the entries in the order in which the runtime
      yields them, which it chooses anew at every loop; every entry is
      yielded once. *)
  map_range : Env -> gmap Source Token -> list (Source * Token);
  map_range_perm : forall e m, map_range e m ≡ₚ map_to_list m;
  (** [env_le e e']: the environment [e'] is [e] or comes after it.  The
      collaborators only move the environment forward. *)
  env_le : Env -> Env -> Prop;
  env_le_refl : forall e, env_le e e;
  env_le_trans : forall e1 e2 e3, env_le e1 e2 -> env_le e2 e3 -> env_le e1 e3;
  pump_Process_later : forall child msg e,
    env_le e (snd (pump_Process child msg e));
  source_Commit_later : forall s v e,
    env_le e (snd (source_Commit s v e));
  (** [time.Since] returns a [time.Duration], an [int64]. *)
  time_Since_int64 : forall t e, Int64.in_range (time_Since t e);
  (** [time.Now()] carries a reading of the monotonic clock, and
      [time.Since] of it is taken on that clock: it is never negative. *)
  time_Since_monotonic : forall e e',
    env_le e e' -> 0 <= time_Since (time_Now e) e';
  (** The reading of the monotonic clock: the nanoseconds since the process
      started, held in an [int64]. *)
  clock : Env -> Z;
  clock_int64 : forall e, 0 <= clock e <= Int64.max_int;
  (** [time.Since] of a [time.Now()] taken earlier is the difference of the
      two readings. *)
  time_Since_clock : forall e e',
    env_le e e' -> time_Since (time_Now e) e' = clock e' - clock e
}.

Section Pipe.

Context `{Collaborators}.

(** ** State *)

Record processorPipe : Type := mkPipe {
  children : list Pump;
  duration : Z
}.

(** A call of a collaborator, with what it returned. *)
Inductive event : Type :=
| Process_call (child : Pump) (msg : Message) (ret : error Err)
| Commit_call (s : Source) (v : Token) (ret : error Err).

Definition event_ret (ev : event) : error Err :=
  match ev with
  | Process_call _ _ ret => ret
  | Commit_call _ _ ret => ret
  end.

(** The call returned [nil]. *)
Definition succeeded (ev : event) : Prop := event_ret ev = None.

Record state : Type := mkState {
  pipe : processorPipe;
  env : Env;
  calls : list event
}.

(** Computations of the pipe: they read and write the state. *)
Definition M (A : Type) : Type := state -> A * state.

Definition ret {A : Type} (a : A) : M A := fun st => (a, st).

Definition bind {A B : Type} (m : M A) (f : A -> M B) : M B :=
  fun st => let (a, st') := m st in f a st'.

Notation "x <- m ;; k" := (bind m (fun x => k))
  (at level 100, m at next level, right associativity).
Notation "m ;;; k" := (bind m (fun _ => k))
  (at level 100, right associativity).

Definition call_Process (child : Pump) (msg : Message) : M (error Err) :=
  fun st =>
    let (r, e') := pump_Process child msg (env st) in
    (r, mkState (pipe st) e' (calls st ++ [Process_call child msg r])).

Definition call_Commit (s : Source) (v : Token) : M (error Err) :=
  fun st =>
    let (r, e') := source_Commit s v (env st) in
    (r, mkState (pipe st) e' (calls st ++ [Commit_call s v r])).

Definition now : M Time := fun st => (time_Now (env st), st).

Definition get_children : M (list Pump) := fun st => (children (pipe st), st).

(** ** The methods of pipe.go *)

(** [NewPipe]: [duration] is left at its zero value. *)
Definition NewPipe (children : list Pump) : processorPipe :=
  mkPipe children 0.

(** [Reset]: [p.duration = 0]. *)
Definition Reset : M unit :=
  fun st => (tt, mkState (mkPipe (children (pipe st)) 0) (env st) (calls st)).

(** [Duration]: [return p.duration]. *)
Definition Duration : M Z :=
  fun st => (duration (pipe st), st).

(** [time]: [p.duration += time.Since(t)]. *)
Definition time (t : Time) : M unit :=
  fun st =>
    (tt, mkState
           (mkPipe (children (pipe st))
                   (Int64.add (duration (pipe st)) (time_Since t (env st))))
           (env st) (calls st)).

(** [defer p.time(time.Now())] in front of a body: [time.Now()] is evaluated
    on entry, [p.time] runs when the body is left, by a return or by a
    panic. *)
Definition defer_time (body : M (outcome Err)) : M (outcome Err) :=
  t <- now ;;
  r <- body ;;
  time t ;;;
  ret r.

(** The loop of [Forward] over the children still to visit. *)
Fixpoint Forward_range (cs : list Pump) (msg : Message) : M (outcome Err) :=
  match cs with
  | [] => ret (Returns None)
  | child :: rest =>
      err <- call_Process child msg ;;
      match err with
      | Some e => ret (Returns (Some e))
      | None => Forward_range rest msg
      end
  end.

Definition Forward_body (msg : Message) : M (outcome Err) :=
  cs <- get_children ;;
  Forward_range cs msg.

Definition Forward (msg : Message) : M (outcome Err) :=
  defer_time (Forward_body msg).

Definition out_of_bounds : error_value Err :=
  errors_New "streams: child index out of bounds".

Definition ForwardToChild_body (msg : Message) (index : Z) : M (outcome Err) :=
  cs <- get_children ;;
  if index >? Z.of_nat (length cs) - 1 then
    ret (Returns (Some out_of_bounds))
  else
    match slice_index cs index with
    | None => ret (Panics (index_out_of_range index (length cs)))
    | Some child =>
        err <- call_Process child msg ;;
        ret (Returns err)
    end.

Definition ForwardToChild (msg : Message) (index : Z) : M (outcome Err) :=
  defer_time (ForwardToChild_body msg index).

(** The loop of [Commit] over the entries still to visit. *)
Fixpoint Commit_range (entries : list (Source * Token)) : M (outcome Err) :=
  match entries with
  | [] => ret (Returns None)
  | (s, v) :: rest =>
      err <- call_Commit s v ;;
      match err with
      | Some e => ret (Returns (Some e))
      | None => Commit_range rest
      end
  end.

Definition range_Metadata (msg : Message) : M (list (Source * Token)) :=
  fun st => (map_range (env st) (Metadata msg), st).

Definition Commit_body (msg : Message) : M (outcome Err) :=
  entries <- range_Metadata msg ;;
  Commit_range entries.

Definition Commit (msg : Message) : M (outcome Err) :=
  defer_time (Commit_body msg).

(** ** Sequences of calls *)

(** The three calls that route a message. *)
Inductive request : Type :=
| Forward_req (msg : Message)
| ForwardToChild_req (msg : Message) (index : Z)
| Commit_req (msg : Message).

Definition body_of (r : request) : M (outcome Err) :=
  match r with
  | Forward_req msg => Forward_body msg
  | ForwardToChild_req msg index => ForwardToChild_body msg index
  | Commit_req msg => Commit_body msg
  end.

Definition serve (r : request) : M (outcome Err) :=
  match r with
  | Forward_req msg => Forward msg
  | ForwardToChild_req msg index => ForwardToChild msg index
  | Commit_req msg => Commit msg
  end.

(** What [time.Since] measures for the body of [r] entered in [st]: from the
    clock read on entry to the environment the body leaves. *)
Definition elapsed (r : request) (st : state) : Z :=
  time_Since (time_Now (env st)) (env (snd (body_of r st))).

Fixpoint serve_all (rs : list request) (st : state) : state :=
  match rs with
  | [] => st
  | r :: rest => serve_all rest (snd (serve r st))
  end.

(** The elapsed times of the calls of [rs], served one after the other. *)
Fixpoint elapsed_all (rs : list request) (st : state) : list Z :=
  match rs with
  | [] => []
  | r :: rest => elapsed r st :: elapsed_all rest (snd (serve r st))
  end.

Definition total (ds : list Z) : Z := foldr Z.add 0 ds.

(** Any call of the pipe. *)
Inductive call : Type :=
| Route (r : request)
| Call_Reset
| Call_Duration.

Definition perform (c : call) (st : state) : state :=
  match c with
  | Route r => snd (serve r st)
  | Call_Reset => snd (Reset st)
  | Call_Duration => snd (Duration st)
  end.

Definition perform_all (cs : list call) (st : state) : state :=
  foldl (fun st c => perform c st) st cs.

(** The accumulator holds no more than the clock has counted. *)
Definition metered (st : state) : Prop :=
  0 <= duration (pipe st) <= clock (env st).

(** ** What "every collaborator before this one succeeds" means *)

(** The environment after the children [cs] have all accepted [msg], one
    after the other; [None] when one of them fails. *)
Fixpoint accept_all (cs : list Pump) (msg : Message) (e : Env) : option Env :=
  match cs with
  | [] => Some e
  | child :: rest =>
      match pump_Process child msg e with
      | (None, e') => accept_all rest msg e'
      | (Some _, _) => None
      end
  end.

(** The same for the sources of [entries] and their [Commit]. *)
Fixpoint ack_all (entries : list (Source * Token)) (e : Env) : option Env :=
  match entries with
  | [] => Some e
  | (s, v) :: rest =>
      match source_Commit s v e with
      | (None, e') => ack_all rest e'
      | (Some _, _) => None
      end
  end.

Definition accepted (msg : Message) (child : Pump) : event :=
  Process_call child msg None.

Definition acked (entry : Source * Token) : event :=
  Commit_call entry.1 entry.2 None.

(** ** Reading the state *)

(** The calls made between [st] and a state [st'] reached from it. *)
Definition new_calls (st st' : state) : list event :=
  drop (length (calls st)) (calls st').

(** [st] with its accumulator set to [d]. *)
Definition with_duration (d : Z) (st : state) : state :=
  mkState (mkPipe (children (pipe st)) d) (env st) (calls st).

(** Two states that differ at most in the accumulator. *)
Definition same_routing (st1 st2 : state) : Prop :=
  children (pipe st1) = children (pipe st2) /\
  env st1 = env st2 /\
  calls st1 = calls st2.

Definition is_Route (c : call) : bool :=
  match c with
  | Route _ => true
  | Call_Reset | Call_Duration => false
  end.

(** A caller's loop over [ForwardToChild]: the children at [indexes], one
    after the other, until a call does not return [nil]. *)
Fixpoint ForwardToChild_each (indexes : list Z) (msg : Message)
    : M (outcome Err) :=
  match indexes with
  | [] => ret (Returns None)
  | index :: rest =>
      r <- ForwardToChild msg index ;;
      match r with
      | Returns None => ForwardToChild_each rest msg
      | _ => ret r
      end
  end.

End Pipe.

(** ** A concrete topology

    Collaborators to run the pipe on.  Everything is named by a number.  The
    environment is the time in nanoseconds since the process started; the
    monotonic clock reads it, and stops at the largest [int64].
    Child [1] fails with error [1]; the other children accept; a [Process]
    takes 5 ns.  Source [13] fails with error [13], the other sources
    acknowledge; a [Commit] of a source takes 3 ns. *)

Module Demo.

Definition demo_Metadata (msg : nat) : gmap nat nat :=
  match msg with
  | O => ∅
  | 1%nat => {[ 10%nat := 100%nat; 20%nat := 200%nat ]}
  | _ => {[ 10%nat := 100%nat; 13%nat := 7%nat; 20%nat := 200%nat ]}
  end.

Definition demo_Process (child msg : nat) (clock : Z) : error nat * Z :=
  match child with
  | 1%nat => (Some (collaborator_error 1%nat), clock + 5)
  | _ => (None, clock + 5)
  end.

Definition demo_Commit (s v : nat) (clock : Z) : error nat * Z :=
  if Nat.eqb s 13 then (Some (collaborator_error 13%nat), clock + 3)
  else (None, clock + 3).

Definition demo_clock (e : Z) : Z := Z.max 0 (Z.min Int64.max_int e).

Definition demo_Since (t e : Z) : Z := demo_clock e - demo_clock t.

Definition demo_range (clock : Z) (m : gmap nat nat) : list (nat * nat) :=
  map_to_list m.

Lemma demo_range_perm (clock : Z) (m : gmap nat nat) :
  demo_range clock m ≡ₚ map_to_list m.
Proof. reflexivity. Qed.

Lemma demo_Process_later (child msg : nat) (clock : Z) :
  clock <= snd (demo_Process child msg clock).
Proof.
  unfold demo_Process.
  destruct child as [|[|child]]; simpl; lia.
Qed.

Lemma demo_Commit_later (s v : nat) (clock : Z) :
  clock <= snd (demo_Commit s v clock).
Proof. unfold demo_Commit. destruct (Nat.eqb s 13); simpl; lia. Qed.

Lemma demo_Since_int64 (t e : Z) : Int64.in_range (demo_Since t e).
Proof.
  unfold Int64.in_range, demo_Since, demo_clock, Int64.min_int,
    Int64.max_int.
  lia.
Qed.

Lemma demo_Since_monotonic (t e : Z) : t <= e -> 0 <= demo_Since t e.
Proof. unfold demo_Since, demo_clock, Int64.max_int. lia. Qed.

Lemma demo_clock_int64 (e : Z) : 0 <= demo_clock e <= Int64.max_int.
Proof. unfold demo_clock, Int64.max_int. lia. Qed.

Lemma demo_Since_clock (t e : Z) :
  t <= e -> demo_Since t e = demo_clock e - demo_clock t.
Proof. reflexivity. Qed.

#[global] Instance demo : Collaborators := {|
  Pump := nat;
  Source := nat;
  Token := nat;
  Message := nat;
  Err := nat;
  Time := Z;
  Env := Z;
  Metadata := demo_Metadata;
  pump_Process := demo_Process;
  source_Commit := demo_Commit;
  time_Now := fun clock => clock;
  time_Since := demo_Since;
  map_range := demo_range;
  map_range_perm := demo_range_perm;
  env_le := Z.le;
  env_le_refl := Z.le_refl;
  env_le_trans := Z.le_trans;
  pump_Process_later := demo_Process_later;
  source_Commit_later := demo_Commit_later;
  time_Since_int64 := demo_Since_int64;
  time_Since_monotonic := demo_Since_monotonic;
  clock := demo_clock;
  clock_int64 := demo_clock_int64;
  time_Since_clock := demo_Since_clock
|}.

(** A pipe fresh from [NewPipe], at clock 0, before any call. *)
Definition fresh (cs : list nat) : state :=
  mkState (NewPipe cs) 0 [].

(** The message numbered [n]. *)
Definition message (n : nat) : @Message demo := n.

(** Three children, the middle one failing; two children that accept. *)
Definition three : state := fresh [0; 1; 2]%nat.
Definition two : state := fresh [0; 2]%nat.

End Demo.

Section Properties.

Context `{Collaborators}.

(** ** Lemmas on the leaves *)

Lemma state_eta (st : state) : mkState (pipe st) (env st) (calls st) = st.
Proof. by destruct st. Qed.

Lemma defer_time_unfold (body : M (outcome Err)) (st : state) :
  defer_time body st =
  (fst (body st),
   mkState
     (mkPipe (children (pipe (snd (body st))))
             (Int64.add (duration (pipe (snd (body st))))
                        (time_Since (time_Now (env st)) (env (snd (body st))))))
     (env (snd (body st))) (calls (snd (body st)))).
Proof.
  unfold defer_time, bind, now, time, ret; simpl.
  by destruct (body st).
Qed.

(** *** The loop of [Forward] *)

Lemma Forward_range_accept (cs : list Pump) (msg : Message) :
  forall (st : state) (e' : Env),
    accept_all cs msg (env st) = Some e' ->
    Forward_range cs msg st =
    (Returns None,
     mkState (pipe st) e' (calls st ++ map (accepted msg) cs)).
Proof.
  induction cs as [|child rest IH]; intros st e' Hacc; simpl in *.
  - injection Hacc as <-. unfold ret. by rewrite app_nil_r, state_eta.
  - unfold bind, call_Process.
    destruct (pump_Process child msg (env st)) as [[err|] e1]; [done|].
    rewrite (IH _ e') by done. simpl.
    by rewrite <- app_assoc.
Qed.

Lemma Forward_range_fail (pre : list Pump) (child : Pump) (post : list Pump)
    (msg : Message) :
  forall (st : state) (e1 e2 : Env) (err : error_value Err),
    accept_all pre msg (env st) = Some e1 ->
    pump_Process child msg e1 = (Some err, e2) ->
    Forward_range (pre ++ child :: post) msg st =
    (Returns (Some err),
     mkState (pipe st) e2
       (calls st ++ map (accepted msg) pre ++
        [Process_call child msg (Some err)])).
Proof.
  induction pre as [|c pre IH]; intros st e1 e2 err Hacc Hfail; simpl in *.
  - injection Hacc as <-. unfold bind, call_Process. by rewrite Hfail.
  - unfold bind, call_Process.
    destruct (pump_Process c msg (env st)) as [[err'|] e0]; [done|].
    rewrite (IH _ e1 e2 err) by done. simpl.
    by rewrite <- app_assoc.
Qed.

Lemma accept_all_cases (cs : list Pump) (msg : Message) :
  forall e : Env,
    (exists e', accept_all cs msg e = Some e') \/
    (exists pre child post err e1 e2,
        cs = pre ++ child :: post /\
        accept_all pre msg e = Some e1 /\
        pump_Process child msg e1 = (Some err, e2)).
Proof.
  induction cs as [|c rest IH]; intros e; simpl.
  - left. by exists e.
  - destruct (pump_Process c msg e) as [[err|] e0] eqn:Hc.
    + right. by exists [], c, rest, err, e, e0.
    + destruct (IH e0)
        as [[e' He']|(pre & child & post & err & e1 & e2 & -> & Hpre & Hch)].
      * left. by exists e'.
      * right. exists (c :: pre), child, post, err, e1, e2.
        simpl. by rewrite Hc.
Qed.

(** *** The loop of [Commit] *)

Lemma Commit_range_ack (entries : list (Source * Token)) :
  forall (st : state) (e' : Env),
    ack_all entries (env st) = Some e' ->
    Commit_range entries st =
    (Returns None, mkState (pipe st) e' (calls st ++ map acked entries)).
Proof.
  induction entries as [|[s v] rest IH]; intros st e' Hack; simpl in *.
  - injection Hack as <-. unfold ret. by rewrite app_nil_r, state_eta.
  - unfold bind, call_Commit.
    destruct (source_Commit s v (env st)) as [[err|] e1]; [done|].
    rewrite (IH _ e') by done. simpl.
    by rewrite <- app_assoc.
Qed.

Lemma Commit_range_fail (pre : list (Source * Token)) (s : Source) (v : Token)
    (post : list (Source * Token)) :
  forall (st : state) (e1 e2 : Env) (err : error_value Err),
    ack_all pre (env st) = Some e1 ->
    source_Commit s v e1 = (Some err, e2) ->
    Commit_range (pre ++ (s, v) :: post) st =
    (Returns (Some err),
     mkState (pipe st) e2
       (calls st ++ map acked pre ++ [Commit_call s v (Some err)])).
Proof.
  induction pre as [|[s0 v0] pre IH]; intros st e1 e2 err Hack Hfail;
    simpl in *.
  - injection Hack as <-. unfold bind, call_Commit. by rewrite Hfail.
  - unfold bind, call_Commit.
    destruct (source_Commit s0 v0 (env st)) as [[err'|] e0]; [done|].
    rewrite (IH _ e1 e2 err) by done. simpl.
    by rewrite <- app_assoc.
Qed.

Lemma ack_all_cases (entries : list (Source * Token)) :
  forall e : Env,
    (exists e', ack_all entries e = Some e') \/
    (exists pre s v post err e1 e2,
        entries = pre ++ (s, v) :: post /\
        ack_all pre e = Some e1 /\
        source_Commit s v e1 = (Some err, e2)).
Proof.
  induction entries as [|[s0 v0] rest IH]; intros e; simpl.
  - left. by exists e.
  - destruct (source_Commit s0 v0 e) as [[err|] e0] eqn:Hc.
    + right. by exists [], s0, v0, rest, err, e, e0.
    + destruct (IH e0)
        as [[e' He']|(pre & s & v & post & err & e1 & e2 & -> & Hpre & Hch)].
      * left. by exists e'.
      * right. exists ((s0, v0) :: pre), s, v, post, err, e1, e2.
        simpl. by rewrite Hc.
Qed.

(** *** What the deferred [p.time] leaves *)

Lemma defer_time_result (body : M (outcome Err)) (st : state) :
  fst (defer_time body st) = fst (body st).
Proof. by rewrite defer_time_unfold. Qed.

Lemma defer_time_calls (body : M (outcome Err)) (st : state) :
  calls (snd (defer_time body st)) = calls (snd (body st)).
Proof. by rewrite defer_time_unfold. Qed.

Lemma defer_time_env (body : M (outcome Err)) (st : state) :
  env (snd (defer_time body st)) = env (snd (body st)).
Proof. by rewrite defer_time_unfold. Qed.

Lemma defer_time_children (body : M (outcome Err)) (st : state) :
  children (pipe (snd (defer_time body st))) =
  children (pipe (snd (body st))).
Proof. by rewrite defer_time_unfold. Qed.

Lemma defer_time_duration (body : M (outcome Err)) (st : state) :
  duration (pipe (snd (defer_time body st))) =
  Int64.add (duration (pipe (snd (body st))))
            (time_Since (time_Now (env st)) (env (snd (body st)))).
Proof. by rewrite defer_time_unfold. Qed.

(** *** The bodies *)

Lemma Forward_body_accept (msg : Message) (st : state) (e' : Env) :
  accept_all (children (pipe st)) msg (env st) = Some e' ->
  Forward_body msg st =
  (Returns None,
   mkState (pipe st) e'
     (calls st ++ map (accepted msg) (children (pipe st)))).
Proof. intros Hacc. by apply Forward_range_accept. Qed.

Lemma Forward_body_fail (msg : Message) (st : state) (k : nat) (child : Pump)
    (e1 e2 : Env) (err : error_value Err) :
  children (pipe st) !! k = Some child ->
  accept_all (take k (children (pipe st))) msg (env st) = Some e1 ->
  pump_Process child msg e1 = (Some err, e2) ->
  Forward_body msg st =
  (Returns (Some err),
   mkState (pipe st) e2
     (calls st ++ map (accepted msg) (take k (children (pipe st))) ++
      [Process_call child msg (Some err)])).
Proof.
  intros Hk Hacc Hfail.
  unfold Forward_body, bind, get_children.
  rewrite <- (take_drop_middle _ _ _ Hk) at 1.
  by apply Forward_range_fail with e1.
Qed.

Lemma ForwardToChild_body_above (msg : Message) (index : Z) (st : state) :
  Z.of_nat (length (children (pipe st))) <= index ->
  ForwardToChild_body msg index st = (Returns (Some out_of_bounds), st).
Proof.
  intros Hge. unfold ForwardToChild_body, bind, get_children.
  destruct (Z.gtb_spec index (Z.of_nat (length (children (pipe st))) - 1));
    [done | lia].
Qed.

Lemma ForwardToChild_body_negative (msg : Message) (index : Z) (st : state) :
  index < 0 ->
  ForwardToChild_body msg index st =
  (Panics (index_out_of_range index (length (children (pipe st)))), st).
Proof.
  intros Hneg. unfold ForwardToChild_body, bind, get_children.
  destruct (Z.gtb_spec index (Z.of_nat (length (children (pipe st))) - 1));
    [lia |].
  unfold slice_index.
  by destruct (Z.ltb_spec index 0); [| lia].
Qed.

Lemma ForwardToChild_body_valid (msg : Message) (index : Z) (st : state)
    (child : Pump) :
  0 <= index ->
  children (pipe st) !! Z.to_nat index = Some child ->
  ForwardToChild_body msg index st =
  (Returns (fst (pump_Process child msg (env st))),
   mkState (pipe st) (snd (pump_Process child msg (env st)))
     (calls st ++
      [Process_call child msg (fst (pump_Process child msg (env st)))])).
Proof.
  intros Hpos Hlook. unfold ForwardToChild_body, bind, get_children.
  apply lookup_lt_Some in Hlook as Hlt.
  destruct (Z.gtb_spec index (Z.of_nat (length (children (pipe st))) - 1));
    [lia |].
  unfold slice_index.
  destruct (Z.ltb_spec index 0); [lia |].
  rewrite Hlook. unfold call_Process, ret.
  by destruct (pump_Process child msg (env st)).
Qed.

Lemma Commit_body_range (msg : Message) (st : state) :
  Commit_body msg st = Commit_range (map_range (env st) (Metadata msg)) st.
Proof. reflexivity. Qed.


Lemma map_range_NoDup (e : Env) (m : gmap Source Token) :
  NoDup (map_range e m).*1.
Proof. rewrite (map_range_perm e m). apply NoDup_fst_map_to_list. Qed.

Lemma map_range_elem_of (e : Env) (m : gmap Source Token) (s : Source)
    (v : Token) :
  (s, v) ∈ map_range e m <-> m !! s = Some v.
Proof. rewrite (map_range_perm e m). apply elem_of_map_to_list. Qed.

(** ** Forward *)

(** C2: when the child at position [k] fails and the children before it
    accept, [Forward] calls the children [0..k] in the order of the list,
    each once, returns the failure of child [k] and calls no child after
    it. *)
Theorem Forward_stops_at_first_failure (msg : Message) (st : state) (k : nat)
    (child : Pump) (e1 e2 : Env) (err : error_value Err) :
  children (pipe st) !! k = Some child ->
  accept_all (take k (children (pipe st))) msg (env st) = Some e1 ->
  pump_Process child msg e1 = (Some err, e2) ->
  fst (Forward msg st) = Returns (Some err) /\
  calls (snd (Forward msg st)) =
    calls st ++ map (accepted msg) (take k (children (pipe st))) ++
    [Process_call child msg (Some err)] /\
  env (snd (Forward msg st)) = e2.
Proof.
  intros Hk Hacc Hfail. unfold Forward.
  rewrite defer_time_result, defer_time_calls, defer_time_env.
  by rewrite (Forward_body_fail msg st k child e1 e2 err).
Qed.

(** C6: when every child accepts, [Forward] calls all of them, each once, in
    the order of the list, and returns [nil]; and it returns [nil] only when
    every child has accepted. *)
Theorem Forward_all_accept (msg : Message) (st : state) :
  (forall e' : Env,
      accept_all (children (pipe st)) msg (env st) = Some e' ->
      fst (Forward msg st) = Returns None /\
      calls (snd (Forward msg st)) =
        calls st ++ map (accepted msg) (children (pipe st)) /\
      env (snd (Forward msg st)) = e') /\
  (fst (Forward msg st) = Returns None ->
   exists e' : Env,
     accept_all (children (pipe st)) msg (env st) = Some e' /\
     calls (snd (Forward msg st)) =
       calls st ++ map (accepted msg) (children (pipe st))).
Proof.
  unfold Forward.
  rewrite defer_time_result, defer_time_calls, defer_time_env.
  split.
  - intros e' Hacc. by rewrite (Forward_body_accept msg st e').
  - destruct (accept_all_cases (children (pipe st)) msg (env st))
      as [[e' Hacc]|(pre & child & post & err & e1 & e2 & Hcs & Hpre & Hch)].
    + intros _. exists e'. by rewrite (Forward_body_accept msg st e').
    + unfold Forward_body, bind, get_children. rewrite Hcs.
      by rewrite (Forward_range_fail pre child post msg st e1 e2 err).
Qed.

(** ** ForwardToChild *)

(** C7: for an index within the list, [ForwardToChild] calls the child at
    that index, once, calls no other child, and returns what that child
    returned. *)
Theorem ForwardToChild_valid_index (msg : Message) (index : Z) (st : state) :
  0 <= index < Z.of_nat (length (children (pipe st))) ->
  exists child : Pump,
    children (pipe st) !! Z.to_nat index = Some child /\
    fst (ForwardToChild msg index st) =
      Returns (fst (pump_Process child msg (env st))) /\
    calls (snd (ForwardToChild msg index st)) =
      calls st ++
      [Process_call child msg (fst (pump_Process child msg (env st)))] /\
    env (snd (ForwardToChild msg index st)) =
      snd (pump_Process child msg (env st)).
Proof.
  intros [Hlo Hhi].
  destruct (lookup_lt_is_Some_2 (children (pipe st)) (Z.to_nat index))
    as [child Hchild]; [lia |].
  exists child. split; [done |]. unfold ForwardToChild.
  rewrite defer_time_result, defer_time_calls, defer_time_env.
  by rewrite (ForwardToChild_body_valid msg index st child).
Qed.



(** ** Commit *)

(** C3: [Commit] calls [Commit] on the sources of the message's metadata,
    each with its own token and none twice, in the order [range] yields them.
    Either every source acknowledges, all are called and [Commit] returns
    [nil]; or it stops at the first source that fails and returns that
    failure, the sources before it called once each, the ones after it not
    called. *)
Theorem Commit_fail_fast (msg : Message) (st : state) :
  let order := map_range (env st) (Metadata msg) in
  NoDup order.*1 /\
  (forall s v, (s, v) ∈ order <-> Metadata msg !! s = Some v) /\
  ((exists e' : Env,
       ack_all order (env st) = Some e' /\
       fst (Commit msg st) = Returns None /\
       calls (snd (Commit msg st)) = calls st ++ map acked order /\
       env (snd (Commit msg st)) = e') \/
   (exists pre s v post err e1 e2,
       order = pre ++ (s, v) :: post /\
       ack_all pre (env st) = Some e1 /\
       source_Commit s v e1 = (Some err, e2) /\
       fst (Commit msg st) = Returns (Some err) /\
       calls (snd (Commit msg st)) =
         calls st ++ map acked pre ++ [Commit_call s v (Some err)] /\
       env (snd (Commit msg st)) = e2)).
Proof.
  intros order. split; [apply map_range_NoDup |].
  split; [intros s v; apply map_range_elem_of |].
  unfold Commit.
  rewrite defer_time_result, defer_time_calls, defer_time_env.
  rewrite Commit_body_range. fold order.
  destruct (ack_all_cases order (env st))
    as [[e' Hack]|(pre & s & v & post & err & e1 & e2 & Hord & Hpre & Hs)].
  - left. exists e'. by rewrite (Commit_range_ack order st e').
  - right. exists pre, s, v, post, err, e1, e2.
    rewrite Hord.
    by rewrite (Commit_range_fail pre s v post st e1 e2 err).
Qed.

(** ** Nothing to call *)


(** ** Reset and Duration *)

(** C8: [Duration] is 0 on a pipe fresh from [NewPipe] and after [Reset],
    which sets the accumulator to 0; [Duration] leaves the state as it
    is. *)
Theorem Duration_zero_and_pure :
  (forall (cs : list Pump) (e : Env) (l : list event),
      fst (Duration (mkState (NewPipe cs) e l)) = 0) /\
  (forall st : state,
      duration (pipe (snd (Reset st))) = 0 /\
      fst (Duration (snd (Reset st))) = 0) /\
  (forall st : state, snd (Duration st) = st).
Proof. by repeat split. Qed.

(** ** Failures are passed on *)

Lemma accepted_succeeded (msg : Message) (cs : list Pump) :
  Forall succeeded (map (accepted msg) cs).
Proof. by induction cs; constructor. Qed.

Lemma acked_succeeded (entries : list (Source * Token)) :
  Forall succeeded (map acked entries).
Proof. by induction entries; constructor. Qed.

Lemma failure_not_among_successes (oks pre post : list event) (ev : event)
    (e : error_value Err) :
  Forall succeeded oks ->
  pre ++ ev :: post = oks ->
  event_ret ev = Some e ->
  False.
Proof.
  intros Hoks <- Hev.
  apply Forall_app in Hoks as [_ Hoks].
  apply Forall_cons in Hoks as [Hok _].
  unfold succeeded in Hok. congruence.
Qed.

Lemma failure_is_last (oks : list event) (failed : event) :
  forall (pre post : list event) (ev : event) (e : error_value Err),
    Forall succeeded oks ->
    pre ++ ev :: post = oks ++ [failed] ->
    event_ret ev = Some e ->
    pre = oks /\ ev = failed /\ post = [].
Proof.
  induction oks as [|ok oks IH]; intros pre post ev e Hoks Heq Hev.
  - destruct pre as [|p pre]; simpl in Heq.
    + by injection Heq as -> ->.
    + injection Heq as _ Heq. by destruct pre.
  - apply Forall_cons in Hoks as [Hok Hoks].
    destruct pre as [|p pre]; simpl in Heq.
    + injection Heq as -> _. unfold succeeded in Hok. congruence.
    + injection Heq as -> Heq.
      destruct (IH pre post ev e Hoks Heq Hev) as (-> & -> & ->).
      done.
Qed.

(** The calls a request adds: successes only, or successes and then one
    failure, which is what the request returns. *)
Lemma serve_unfold (r : request) : serve r = defer_time (body_of r).
Proof. by destruct r. Qed.

Lemma body_calls (r : request) (st : state) :
  (exists oks : list event,
      Forall succeeded oks /\
      calls (snd (body_of r st)) = calls st ++ oks) \/
  (exists (oks : list event) (failed : event) (err : error_value Err),
      Forall succeeded oks /\
      event_ret failed = Some err /\
      calls (snd (body_of r st)) = calls st ++ oks ++ [failed] /\
      fst (body_of r st) = Returns (Some err)).
Proof.
  destruct r as [msg|msg index|msg]; simpl.
  - destruct (accept_all_cases (children (pipe st)) msg (env st))
      as [[e' Hacc]|(pre & child & post & err & e1 & e2 & Hcs & Hpre & Hch)].
    + left. exists (map (accepted msg) (children (pipe st))).
      split; [apply accepted_succeeded |].
      by rewrite (Forward_body_accept msg st e').
    + right.
      exists (map (accepted msg) pre), (Process_call child msg (Some err)), err.
      split; [apply accepted_succeeded |]. split; [done |].
      unfold Forward_body, bind, get_children. rewrite Hcs.
      by rewrite (Forward_range_fail pre child post msg st e1 e2 err).
  - destruct (Z_lt_le_dec index 0) as [Hneg|Hpos].
    { left. exists []. split; [constructor |].
      rewrite (ForwardToChild_body_negative msg index st) by done.
      by rewrite app_nil_r. }
    destruct (Z_lt_le_dec index (Z.of_nat (length (children (pipe st)))))
      as [Hin|Hout].
    + destruct (lookup_lt_is_Some_2 (children (pipe st)) (Z.to_nat index))
        as [child Hchild]; [lia |].
      rewrite (ForwardToChild_body_valid msg index st child) by done.
      simpl.
      destruct (fst (pump_Process child msg (env st))) as [err|] eqn:Hret.
      * right. exists [], (Process_call child msg (Some err)), err.
        by repeat split.
      * left. exists [Process_call child msg None].
        split; [by repeat constructor | done].
    + left. exists []. split; [constructor |].
      rewrite (ForwardToChild_body_above msg index st) by done.
      by rewrite app_nil_r.
  - rewrite Commit_body_range.
    destruct (ack_all_cases (map_range (env st) (Metadata msg)) (env st))
      as [[e' Hack]|(pre & s & v & post & err & e1 & e2 & Hord & Hpre & Hs)].
    + left. exists (map acked (map_range (env st) (Metadata msg))).
      split; [apply acked_succeeded |].
      by rewrite (Commit_range_ack _ st e').
    + right.
      exists (map acked pre), (Commit_call s v (Some err)), err.
      split; [apply acked_succeeded |]. split; [done |].
      rewrite Hord.
      by rewrite (Commit_range_fail pre s v post st e1 e2 err).
Qed.

(** C5: when a call of a child's [Process] or of a source's [Commit], made
    by [Forward], [ForwardToChild] or [Commit], returns a failure, the pipe
    returns that very value; it is the last call the pipe makes, and every
    call before it succeeded. *)
Theorem failure_returned_verbatim (r : request) (st : state)
    (pre post : list event) (ev : event) (e : error_value Err) :
  calls (snd (serve r st)) = calls st ++ pre ++ ev :: post ->
  event_ret ev = Some e ->
  fst (serve r st) = Returns (Some e) /\
  post = [] /\
  Forall succeeded pre.
Proof.
  rewrite serve_unfold, defer_time_result, defer_time_calls.
  intros Hcalls Hev.
  destruct (body_calls r st)
    as [(oks & Hoks & Heq)|(oks & failed & err & Hoks & Hfailed & Heq & Hout)];
    rewrite Heq in Hcalls; apply app_inv_head in Hcalls.
  - exfalso. by apply (failure_not_among_successes oks pre post ev e).
  - symmetry in Hcalls.
    destruct (failure_is_last oks failed pre post ev e Hoks Hcalls Hev)
      as (-> & -> & ->).
    rewrite Hout. split; [congruence | done].
Qed.

(** ** The accumulated duration *)

Lemma wrap_in_range (z : Z) : Int64.in_range z -> Int64.wrap z = z.
Proof.
  unfold Int64.in_range, Int64.min_int, Int64.max_int, Int64.wrap,
    Int64.modulus.
  intros Hz. rewrite Z.mod_small; lia.
Qed.

Lemma wrap_range (z : Z) : Int64.in_range (Int64.wrap z).
Proof.
  unfold Int64.in_range, Int64.min_int, Int64.max_int, Int64.wrap,
    Int64.modulus.
  pose proof (Z.mod_pos_bound (z + 2 ^ 63) (2 ^ 64)). lia.
Qed.

Lemma wrap_add_wrap (a b : Z) :
  Int64.wrap (Int64.wrap a + b) = Int64.wrap (a + b).
Proof.
  unfold Int64.wrap, Int64.modulus.
  replace ((a + 2 ^ 63) mod 2 ^ 64 - 2 ^ 63 + b + 2 ^ 63)
    with ((a + 2 ^ 63) mod 2 ^ 64 + b) by ring.
  rewrite Zplus_mod_idemp_l.
  by replace (a + 2 ^ 63 + b) with (a + b + 2 ^ 63) by ring.
Qed.

Lemma Forward_range_pipe (cs : list Pump) (msg : Message) :
  forall st : state, pipe (snd (Forward_range cs msg st)) = pipe st.
Proof.
  induction cs as [|child rest IH]; intros st; simpl; [done |].
  unfold bind, call_Process.
  destruct (pump_Process child msg (env st)) as [[err|] e1]; [done |].
  by rewrite IH.
Qed.

Lemma Commit_range_pipe (entries : list (Source * Token)) :
  forall st : state, pipe (snd (Commit_range entries st)) = pipe st.
Proof.
  induction entries as [|[s v] rest IH]; intros st; simpl; [done |].
  unfold bind, call_Commit.
  destruct (source_Commit s v (env st)) as [[err|] e1]; [done |].
  by rewrite IH.
Qed.

(** The bodies leave the pipe alone: only [time] and [Reset] write it. *)
Lemma body_pipe (r : request) (st : state) :
  pipe (snd (body_of r st)) = pipe st.
Proof.
  destruct r as [msg|msg index|msg]; simpl.
  - apply Forward_range_pipe.
  - unfold ForwardToChild_body, bind, get_children.
    destruct (index >? _); [done |].
    destruct (slice_index _ _) as [child|]; [| done].
    unfold call_Process.
    by destruct (pump_Process child msg (env st)).
  - rewrite Commit_body_range. apply Commit_range_pipe.
Qed.

Lemma Forward_range_later (cs : list Pump) (msg : Message) :
  forall st : state, env_le (env st) (env (snd (Forward_range cs msg st))).
Proof.
  induction cs as [|child rest IH]; intros st; simpl; [apply env_le_refl |].
  unfold bind, call_Process.
  pose proof (pump_Process_later child msg (env st)) as Hstep.
  destruct (pump_Process child msg (env st)) as [[err|] e1]; [done |].
  apply env_le_trans with e1; [done |].
  apply (IH (mkState (pipe st) e1 (calls st ++ [Process_call child msg None]))).
Qed.

Lemma Commit_range_later (entries : list (Source * Token)) :
  forall st : state, env_le (env st) (env (snd (Commit_range entries st))).
Proof.
  induction entries as [|[s v] rest IH]; intros st; simpl;
    [apply env_le_refl |].
  unfold bind, call_Commit.
  pose proof (source_Commit_later s v (env st)) as Hstep.
  destruct (source_Commit s v (env st)) as [[err|] e1]; [done |].
  apply env_le_trans with e1; [done |].
  apply (IH (mkState (pipe st) e1 (calls st ++ [Commit_call s v None]))).
Qed.

(** The bodies only move the environment forward. *)
Lemma body_later (r : request) (st : state) :
  env_le (env st) (env (snd (body_of r st))).
Proof.
  destruct r as [msg|msg index|msg]; simpl.
  - apply Forward_range_later.
  - unfold ForwardToChild_body, bind, get_children.
    destruct (index >? _); [apply env_le_refl |].
    destruct (slice_index _ _) as [child|]; [| apply env_le_refl].
    unfold call_Process.
    pose proof (pump_Process_later child msg (env st)) as Hstep.
    by destruct (pump_Process child msg (env st)).
  - rewrite Commit_body_range. apply Commit_range_later.
Qed.

(** What [time.Since] measures for a body is never negative. *)
Lemma elapsed_nonneg (r : request) (st : state) : 0 <= elapsed r st.
Proof. apply time_Since_monotonic, body_later. Qed.

(** Each of the three calls adds the elapsed time of its body, however the
    body ends. *)
Lemma serve_duration (r : request) (st : state) :
  duration (pipe (snd (serve r st))) =
  Int64.add (duration (pipe st)) (elapsed r st).
Proof.
  rewrite serve_unfold, defer_time_duration, body_pipe. done.
Qed.

Lemma serve_children (r : request) (st : state) :
  children (pipe (snd (serve r st))) = children (pipe st).
Proof.
  rewrite serve_unfold, defer_time_children, body_pipe. done.
Qed.

Lemma serve_all_duration (rs : list request) :
  forall st : state,
    Int64.in_range (duration (pipe st)) ->
    duration (pipe (serve_all rs st)) =
    Int64.wrap (duration (pipe st) + total (elapsed_all rs st)).
Proof.
  induction rs as [|r rest IH]; intros st Hrange; simpl.
  - by rewrite Z.add_0_r, wrap_in_range.
  - rewrite IH; rewrite serve_duration; [| apply wrap_range].
    unfold Int64.add. rewrite wrap_add_wrap.
    f_equal. unfold total. ring.
Qed.

Lemma elapsed_clock (r : request) (st : state) :
  elapsed r st = clock (env (snd (serve r st))) - clock (env st).
Proof.
  unfold elapsed. rewrite time_Since_clock by apply body_later.
  by rewrite serve_unfold, defer_time_env.
Qed.

(** While the accumulator holds no more than the clock has counted, a call
    adds the elapsed time of its body exactly, and the accumulator still
    holds no more than the clock has counted. *)
Lemma serve_metered (r : request) (st : state) :
  metered st ->
  duration (pipe (snd (serve r st))) = duration (pipe st) + elapsed r st /\
  metered (snd (serve r st)).
Proof.
  unfold metered. intros [Hlo Hhi].
  pose proof (elapsed_nonneg r st) as Hel.
  pose proof (elapsed_clock r st) as Hclock.
  pose proof (clock_int64 (env (snd (serve r st)))) as [_ Hmax].
  rewrite serve_duration. unfold Int64.add.
  rewrite wrap_in_range.
  - split; [done | lia].
  - unfold Int64.in_range, Int64.min_int, Int64.max_int in *. lia.
Qed.


Lemma zero_metered (st : state) : duration (pipe st) = 0 -> metered st.
Proof.
  unfold metered. intros ->.
  pose proof (clock_int64 (env st)). lia.
Qed.


(** ** What no call changes *)

Lemma perform_children (c : call) (st : state) :
  children (pipe (perform c st)) = children (pipe st).
Proof. destruct c as [r| |]; simpl; [apply serve_children | done | done]. Qed.

Lemma perform_all_children (cs : list call) :
  forall st : state,
    children (pipe (perform_all cs st)) = children (pipe st).
Proof.
  induction cs as [|c rest IH]; intros st; [done |].
  change (perform_all (c :: rest) st) with (perform_all rest (perform c st)).
  by rewrite IH, perform_children.
Qed.

Lemma perform_metered (c : call) (st : state) :
  metered st ->
  metered (perform c st) /\
  (c <> Call_Reset -> duration (pipe st) <= duration (pipe (perform c st))) /\
  (c = Call_Reset -> duration (pipe (perform c st)) = 0).
Proof.
  intros Hst.
  destruct c as [r| |]; simpl.
  - destruct (serve_metered r st Hst) as [Hstep Hnext].
    pose proof (elapsed_nonneg r st) as Hel.
    split; [done |]. split; [lia | done].
  - split; [by apply zero_metered | done].
  - split; [done |]. split; [lia | done].
Qed.

Lemma perform_all_metered (cs : list call) :
  forall st : state, metered st -> metered (perform_all cs st).
Proof.
  induction cs as [|c rest IH]; intros st Hst; [done |].
  change (perform_all (c :: rest) st) with (perform_all rest (perform c st)).
  apply IH. by destruct (perform_metered c st Hst).
Qed.

(** C9: no sequence of calls of [Forward], [ForwardToChild], [Commit],
    [Reset] and [Duration] changes the list of children: it is the list
    given to [NewPipe].  On a pipe made by [NewPipe], after any sequence of
    calls the accumulator is at 0 or above, and a further call leaves it no
    smaller than it was, [Reset] apart, which leaves it at 0. *)
Theorem children_fixed_duration_monotone (st : state)
    (children0 : list Pump) (e : Env) (l : list event) (cs : list call)
    (c : call) :
  children (pipe (perform_all cs st)) = children (pipe st) /\
  (let st' := perform_all cs (mkState (NewPipe children0) e l) in
   children (pipe st') = children0 /\
   0 <= duration (pipe st') /\
   (c <> Call_Reset ->
    duration (pipe st') <= duration (pipe (perform c st'))) /\
   (c = Call_Reset -> duration (pipe (perform c st')) = 0)).
Proof.
  split; [apply perform_all_children |].
  intros st'.
  assert (Hst' : metered st').
  { apply perform_all_metered. by apply zero_metered. }
  split; [apply (perform_all_children cs (mkState (NewPipe children0) e l)) |].
  split; [apply Hst' |].
  by destruct (perform_metered c st' Hst') as (_ & ? & ?).
Qed.

(** ** How a call ends *)

Lemma new_calls_app (st st' : state) (new : list event) :
  calls st' = calls st ++ new -> new_calls st st' = new.
Proof. intros Heq. unfold new_calls. rewrite Heq. apply drop_app_length. Qed.

(** The four ways the body of a request ends. *)
Lemma body_outcome (r : request) (st : state) :
  (exists oks : list event,
      Forall succeeded oks /\
      calls (snd (body_of r st)) = calls st ++ oks /\
      fst (body_of r st) = Returns None) \/
  (exists (oks : list event) (failed : event) (err : error_value Err),
      Forall succeeded oks /\
      event_ret failed = Some err /\
      calls (snd (body_of r st)) = calls st ++ oks ++ [failed] /\
      fst (body_of r st) = Returns (Some err)) \/
  (exists (msg : Message) (index : Z),
      r = ForwardToChild_req msg index /\
      Z.of_nat (length (children (pipe st))) <= index /\
      body_of r st = (Returns (Some out_of_bounds), st)) \/
  (exists (msg : Message) (index : Z),
      r = ForwardToChild_req msg index /\
      index < 0 /\
      body_of r st =
      (Panics (index_out_of_range index (length (children (pipe st)))), st)).
Proof.
  destruct r as [msg|msg index|msg]; simpl.
  - destruct (accept_all_cases (children (pipe st)) msg (env st))
      as [[e' Hacc]|(pre & child & post & err & e1 & e2 & Hcs & Hpre & Hch)].
    + left. exists (map (accepted msg) (children (pipe st))).
      split; [apply accepted_succeeded |].
      by rewrite (Forward_body_accept msg st e').
    + right; left.
      exists (map (accepted msg) pre), (Process_call child msg (Some err)), err.
      split; [apply accepted_succeeded |]. split; [done |].
      unfold Forward_body, bind, get_children. rewrite Hcs.
      by rewrite (Forward_range_fail pre child post msg st e1 e2 err).
  - destruct (Z_lt_le_dec index 0) as [Hneg|Hpos].
    { do 3 right. exists msg, index. split; [done |]. split; [done |].
      by apply ForwardToChild_body_negative. }
    destruct (Z_lt_le_dec index (Z.of_nat (length (children (pipe st)))))
      as [Hin|Hout].
    + destruct (lookup_lt_is_Some_2 (children (pipe st)) (Z.to_nat index))
        as [child Hchild]; [lia |].
      rewrite (ForwardToChild_body_valid msg index st child) by done.
      simpl.
      destruct (fst (pump_Process child msg (env st))) as [err|] eqn:Hret.
      * right; left. exists [], (Process_call child msg (Some err)), err.
        by repeat split.
      * left. exists [Process_call child msg None].
        split; [by repeat constructor | done].
    + do 2 right; left. exists msg, index. split; [done |]. split; [done |].
      by apply ForwardToChild_body_above.
  - rewrite Commit_body_range.
    destruct (ack_all_cases (map_range (env st) (Metadata msg)) (env st))
      as [[e' Hack]|(pre & s & v & post & err & e1 & e2 & Hord & Hpre & Hs)].
    + left. exists (map acked (map_range (env st) (Metadata msg))).
      split; [apply acked_succeeded |].
      by rewrite (Commit_range_ack _ st e').
    + right; left.
      exists (map acked pre), (Commit_call s v (Some err)), err.
      split; [apply acked_succeeded |]. split; [done |].
      rewrite Hord.
      by rewrite (Commit_range_fail pre s v post st e1 e2 err).
Qed.

(** X6: a failure the pipe returns is never of its own making, the bounds
    error apart: it is what the last collaborator it called returned, every
    call before that one having succeeded; or it is the bounds error of
    [ForwardToChild] for an index at or past the end, with no call made. *)
Theorem returned_failure_has_an_origin (r : request) (st : state)
    (e : error_value Err) :
  fst (serve r st) = Returns (Some e) ->
  (exists (pre : list event) (failed : event),
      new_calls st (snd (serve r st)) = pre ++ [failed] /\
      event_ret failed = Some e /\
      Forall succeeded pre) \/
  (exists (msg : Message) (index : Z),
      r = ForwardToChild_req msg index /\
      Z.of_nat (length (children (pipe st))) <= index /\
      e = out_of_bounds /\
      new_calls st (snd (serve r st)) = []).
Proof.
  rewrite serve_unfold, defer_time_result. unfold new_calls.
  rewrite defer_time_calls. intros Hret.
  destruct (body_outcome r st)
    as [(oks & _ & _ & Hout)
       |[(oks & failed & err & Hoks & Hfailed & Hcalls & Hout)
        |[(msg & index & Hr & Hge & Hbody)
         |(msg & index & _ & _ & Hbody)]]].
  - congruence.
  - left. exists oks, failed.
    rewrite Hcalls, drop_app_length.
    split; [done |]. split; [congruence | done].
  - right. exists msg, index. rewrite Hbody in Hret |- *. simpl in *.
    split; [done |]. split; [done |]. split; [congruence |].
    apply drop_all.
  - rewrite Hbody in Hret. discriminate.
Qed.

(** ** Whom the pipe calls *)

Lemma accepted_Forall2 (msg : Message) (cs : list Pump) :
  Forall2 (fun ev child => exists r, ev = Process_call child msg r)
    (map (accepted msg) cs) cs.
Proof.
  induction cs as [|child rest IH]; constructor; [| done].
  by exists None.
Qed.

Lemma acked_Forall2 (entries : list (Source * Token)) :
  Forall2 (fun ev entry => exists r, ev = Commit_call entry.1 entry.2 r)
    (map acked entries) entries.
Proof.
  induction entries as [|entry rest IH]; constructor; [| done].
  by exists None.
Qed.

Lemma take_past_prefix {A : Type} (pre : list A) (x : A) (post : list A) :
  take (S (length pre)) (pre ++ x :: post) = pre ++ [x].
Proof.
  rewrite cons_middle, app_assoc.
  apply take_app_length'. rewrite length_app. simpl. lia.
Qed.

(** X4: the calls [Forward] makes are calls of [Process], with the message
    it was given, on the first [n] children in the order of the list, one
    call each: all of them when it returns [nil], at least one when it
    returns a failure.  It calls no source. *)
Theorem Forward_calls_a_prefix (msg : Message) (st : state) :
  exists n : nat,
    (n <= length (children (pipe st)))%nat /\
    Forall2 (fun ev child => exists r, ev = Process_call child msg r)
      (new_calls st (snd (Forward msg st)))
      (take n (children (pipe st))) /\
    ((fst (Forward msg st) = Returns None /\
      n = length (children (pipe st))) \/
     (exists e, fst (Forward msg st) = Returns (Some e) /\ (0 < n)%nat)).
Proof.
  unfold Forward, new_calls.
  rewrite defer_time_result, defer_time_calls.
  destruct (accept_all_cases (children (pipe st)) msg (env st))
    as [[e' Hacc]|(pre & child & post & err & e1 & e2 & Hcs & Hpre & Hch)].
  - exists (length (children (pipe st))).
    rewrite (Forward_body_accept msg st e') by done. simpl.
    rewrite drop_app_length, firstn_all.
    split; [done |]. split; [apply accepted_Forall2 | by left].
  - exists (S (length pre)).
    unfold Forward_body, bind, get_children. rewrite Hcs.
    rewrite (Forward_range_fail pre child post msg st e1 e2 err) by done.
    simpl. rewrite drop_app_length, take_past_prefix.
    split; [rewrite length_app; simpl; lia |].
    split.
    + apply Forall2_app; [apply accepted_Forall2 |].
      constructor; [by exists (Some err) | constructor].
    + right. exists err. split; [done | lia].
Qed.

(** X5: the calls [Commit] makes are calls of [Commit] on the first [n]
    entries that [range] yields, each source with the token the metadata
    gives it, one call each: all of them when it returns [nil], at least
    one when it returns a failure.  It calls no child. *)
Theorem Commit_calls_a_prefix (msg : Message) (st : state) :
  exists n : nat,
    (n <= length (map_range (env st) (Metadata msg)))%nat /\
    Forall2 (fun ev entry => exists r, ev = Commit_call entry.1 entry.2 r)
      (new_calls st (snd (Commit msg st)))
      (take n (map_range (env st) (Metadata msg))) /\
    Forall (fun entry => Metadata msg !! entry.1 = Some entry.2)
      (take n (map_range (env st) (Metadata msg))) /\
    ((fst (Commit msg st) = Returns None /\
      n = length (map_range (env st) (Metadata msg))) \/
     (exists e, fst (Commit msg st) = Returns (Some e) /\ (0 < n)%nat)).
Proof.
  assert (Hmeta : forall n,
             Forall (fun entry => Metadata msg !! entry.1 = Some entry.2)
               (take n (map_range (env st) (Metadata msg)))).
  { intros n. apply Forall_take, Forall_forall. intros [s v] Hin.
    by apply (map_range_elem_of (env st)). }
  unfold Commit, new_calls.
  rewrite defer_time_result, defer_time_calls, Commit_body_range.
  destruct (ack_all_cases (map_range (env st) (Metadata msg)) (env st))
    as [[e' Hack]|(pre & s & v & post & err & e1 & e2 & Hord & Hpre & Hs)].
  - exists (length (map_range (env st) (Metadata msg))).
    split; [done |]. split; [| split; [apply Hmeta | left]].
    + rewrite (Commit_range_ack _ st e') by done. simpl.
      rewrite drop_app_length, firstn_all. apply acked_Forall2.
    + by rewrite (Commit_range_ack _ st e').
  - exists (S (length pre)).
    split; [rewrite Hord, length_app; simpl; lia |].
    split; [| split; [apply Hmeta | right]].
    + rewrite Hord.
      rewrite (Commit_range_fail pre s v post st e1 e2 err) by done.
      simpl. rewrite drop_app_length, take_past_prefix.
      apply Forall2_app; [apply acked_Forall2 |].
      constructor; [by exists (Some err) | constructor].
    + exists err. split; [| lia]. rewrite Hord.
      by rewrite (Commit_range_fail pre s v post st e1 e2 err).
Qed.

(** X7: when [Commit] returns [nil], its calls are, up to their order, one
    successful [Commit] for each entry of the message's metadata: every
    source has acknowledged its token, once. *)
Theorem Commit_nil_acknowledges_all (msg : Message) (st : state) :
  fst (Commit msg st) = Returns None ->
  new_calls st (snd (Commit msg st)) ≡ₚ
  map acked (map_to_list (Metadata msg)).
Proof.
  unfold Commit, new_calls.
  rewrite defer_time_result, defer_time_calls, Commit_body_range.
  destruct (ack_all_cases (map_range (env st) (Metadata msg)) (env st))
    as [[e' Hack]|(pre & s & v & post & err & e1 & e2 & Hord & Hpre & Hs)].
  - rewrite (Commit_range_ack _ st e') by done. simpl. intros _.
    rewrite drop_app_length.
    apply fmap_Permutation, map_range_perm.
  - rewrite Hord.
    by rewrite (Commit_range_fail pre s v post st e1 e2 err).
Qed.

(** ** Routing and metering do not meet *)

Lemma Forward_range_frame (cs : list Pump) (msg : Message) :
  forall (st : state) (p : processorPipe),
    Forward_range cs msg (mkState p (env st) (calls st)) =
    (fst (Forward_range cs msg st),
     mkState p (env (snd (Forward_range cs msg st)))
       (calls (snd (Forward_range cs msg st)))).
Proof.
  induction cs as [|child rest IH]; intros st p; simpl; [done |].
  unfold bind, call_Process. simpl.
  destruct (pump_Process child msg (env st)) as [[err|] e1]; [done |].
  apply (IH (mkState (pipe st) e1 (calls st ++ [Process_call child msg None]))
            p).
Qed.

Lemma Commit_range_frame (entries : list (Source * Token)) :
  forall (st : state) (p : processorPipe),
    Commit_range entries (mkState p (env st) (calls st)) =
    (fst (Commit_range entries st),
     mkState p (env (snd (Commit_range entries st)))
       (calls (snd (Commit_range entries st)))).
Proof.
  induction entries as [|[s v] rest IH]; intros st p; simpl; [done |].
  unfold bind, call_Commit. simpl.
  destruct (source_Commit s v (env st)) as [[err|] e1]; [done |].
  apply (IH (mkState (pipe st) e1 (calls st ++ [Commit_call s v None])) p).
Qed.

Lemma body_respects_routing (r : request) (st1 st2 : state) :
  same_routing st1 st2 ->
  fst (body_of r st1) = fst (body_of r st2) /\
  env (snd (body_of r st1)) = env (snd (body_of r st2)) /\
  calls (snd (body_of r st1)) = calls (snd (body_of r st2)).
Proof.
  intros (Hc & He & Hl).
  destruct st1 as [p1 e1 l1]. simpl in Hc, He, Hl. subst e1 l1.
  destruct r as [msg|msg index|msg]; simpl.
  - unfold Forward_body, bind, get_children. simpl. rewrite Hc.
    by rewrite (Forward_range_frame _ msg st2 p1).
  - unfold ForwardToChild_body, bind, get_children. simpl. rewrite Hc.
    destruct (index >? _); [done |].
    destruct (slice_index _ _) as [child|]; [| done].
    unfold call_Process. simpl.
    by destruct (pump_Process child msg (env st2)).
  - rewrite !Commit_body_range. simpl.
    by rewrite (Commit_range_frame _ st2 p1).
Qed.

Lemma serve_respects_routing (r : request) (st1 st2 : state) :
  same_routing st1 st2 ->
  fst (serve r st1) = fst (serve r st2) /\
  same_routing (snd (serve r st1)) (snd (serve r st2)) /\
  elapsed r st1 = elapsed r st2.
Proof.
  intros Hsame.
  destruct (body_respects_routing r st1 st2 Hsame) as (Hout & Henv & Hcalls).
  destruct Hsame as (Hc & He & Hl).
  unfold same_routing, elapsed.
  rewrite !serve_children, !serve_unfold, !defer_time_result,
    !defer_time_env, !defer_time_calls.
  by rewrite Hout, Henv, Hcalls, He.
Qed.

(** X8: what is in the accumulator has no bearing on routing: with any
    other value in it, [Forward], [ForwardToChild] and [Commit] end the same
    way, make the same calls, leave the same environment and measure the
    same elapsed time. *)
Theorem routing_ignores_duration (r : request) (d : Z) (st : state) :
  fst (serve r (with_duration d st)) = fst (serve r st) /\
  env (snd (serve r (with_duration d st))) = env (snd (serve r st)) /\
  calls (snd (serve r (with_duration d st))) = calls (snd (serve r st)) /\
  children (pipe (snd (serve r (with_duration d st)))) =
    children (pipe (snd (serve r st))) /\
  elapsed r (with_duration d st) = elapsed r st.
Proof.
  destruct (serve_respects_routing r (with_duration d st) st)
    as (Hout & (Hc & He & Hl) & Hel); [done |].
  by repeat split.
Qed.

Lemma perform_all_routes (cs : list call) :
  forall st1 st2 : state,
    same_routing st1 st2 ->
    same_routing (perform_all cs st1)
      (perform_all (List.filter is_Route cs) st2).
Proof.
  induction cs as [|c rest IH]; intros st1 st2 Hsame; [done |].
  change (perform_all (c :: rest) st1) with (perform_all rest (perform c st1)).
  destruct c as [r| |]; simpl List.filter.
  - change (perform_all (Route r :: List.filter is_Route rest) st2)
      with (perform_all (List.filter is_Route rest) (perform (Route r) st2)).
    apply IH. simpl.
    by destruct (serve_respects_routing r st1 st2 Hsame) as (_ & ? & _).
  - apply IH. by destruct Hsame as (? & ? & ?).
  - by apply IH.
Qed.

(** X9: [Reset] and [Duration] go unseen outside the pipe: a sequence of
    calls makes the same calls of collaborators, and leaves the same
    environment and the same children, as the sequence without its [Reset]
    and [Duration] calls. *)
Theorem Reset_and_Duration_unseen (cs : list call) (st : state) :
  calls (perform_all cs st) =
    calls (perform_all (List.filter is_Route cs) st) /\
  env (perform_all cs st) =
    env (perform_all (List.filter is_Route cs) st) /\
  children (pipe (perform_all cs st)) =
    children (pipe (perform_all (List.filter is_Route cs) st)).
Proof.
  destruct (perform_all_routes cs st st) as (Hc & He & Hl); [done |].
  by repeat split.
Qed.

Lemma elapsed_all_respects_routing (rs : list request) :
  forall st1 st2 : state,
    same_routing st1 st2 -> elapsed_all rs st1 = elapsed_all rs st2.
Proof.
  induction rs as [|r rest IH]; intros st1 st2 Hsame; simpl; [done |].
  destruct (serve_respects_routing r st1 st2 Hsame) as (_ & Hnext & ->).
  by rewrite (IH _ _ Hnext).
Qed.

(** X11: [Reset] opens a new window: whatever had been accumulated, after
    [Reset] and then a sequence of [Forward], [ForwardToChild] and [Commit]
    calls, [Duration] is the [int64] sum of the elapsed times of those calls
    alone. *)
Theorem Reset_opens_a_window (rs : list request) (st : state) :
  fst (Duration (serve_all rs (snd (Reset st)))) =
  Int64.wrap (total (elapsed_all rs st)).
Proof.
  simpl fst. rewrite serve_all_duration.
  - simpl. by rewrite (elapsed_all_respects_routing rs _ st).
  - by vm_compute.
Qed.

(** ** Forward, one child at a time *)

Lemma ForwardToChild_each_range (msg : Message) (post : list Pump) :
  forall (pre : list Pump) (st : state),
    children (pipe st) = pre ++ post ->
    let indexes := map Z.of_nat (seq (length pre) (length post)) in
    fst (ForwardToChild_each indexes msg st) =
      fst (Forward_range post msg st) /\
    env (snd (ForwardToChild_each indexes msg st)) =
      env (snd (Forward_range post msg st)) /\
    calls (snd (ForwardToChild_each indexes msg st)) =
      calls (snd (Forward_range post msg st)).
Proof.
  induction post as [|child rest IH]; intros pre st Hcs; [done |].
  simpl.
  assert (Hchild : children (pipe st) !! Z.to_nat (Z.of_nat (length pre))
                   = Some child).
  { rewrite Nat2Z.id, Hcs. by apply list_lookup_middle. }
  unfold bind, ForwardToChild. rewrite defer_time_unfold.
  rewrite (ForwardToChild_body_valid msg _ st child) by (done || lia).
  unfold call_Process. simpl.
  destruct (pump_Process child msg (env st)) as [[err|] e1]; [done |].
  simpl.
  set (st1' := mkState (pipe st) e1 _).
  set (st1 := mkState (mkPipe _ _) e1 _).
  destruct (IH (pre ++ [child]) st1) as (Hout & Henv & Hcalls).
  { simpl. by rewrite Hcs, <- app_assoc. }
  rewrite length_app, Nat.add_1_r in Hout, Henv, Hcalls.
  rewrite Hout, Henv, Hcalls.
  change st1 with (mkState (pipe st1) (env st1') (calls st1')).
  by rewrite (Forward_range_frame rest msg st1' (pipe st1)).
Qed.

(** X10: to the children, [Forward] is [ForwardToChild] at 0, 1, 2, ... up
    to the first call that does not return [nil]: both end the same way,
    make the same calls and leave the same environment. *)
Theorem Forward_as_ForwardToChild_each (msg : Message) (st : state) :
  let indexes := map Z.of_nat (seq 0 (length (children (pipe st)))) in
  fst (ForwardToChild_each indexes msg st) = fst (Forward msg st) /\
  env (snd (ForwardToChild_each indexes msg st)) =
    env (snd (Forward msg st)) /\
  calls (snd (ForwardToChild_each indexes msg st)) =
    calls (snd (Forward msg st)).
Proof.
  unfold Forward.
  rewrite defer_time_result, defer_time_env, defer_time_calls.
  apply (ForwardToChild_each_range msg (children (pipe st)) [] st).
  done.
Qed.

End Properties.

(** ** The pipe on the concrete topology *)

(** C1: with two children, [ForwardToChild] at index [-1] returns no error:
    the bounds check lets the index through and indexing the list panics.
    No child is called. *)
Theorem ForwardToChild_negative_index_panics :
  ForwardToChild (Demo.message 7) (-1) Demo.two =
  (Panics (index_out_of_range (-1) 2), Demo.two).
Proof. reflexivity. Qed.

Lemma Forward_stops_at_first_failure_witness :
  fst (Forward (Demo.message 7) Demo.three) =
    Returns (Some (collaborator_error 1%nat)) /\
  calls (snd (Forward (Demo.message 7) Demo.three)) =
    [Process_call 0%nat 7%nat None;
     Process_call 1%nat 7%nat (Some (collaborator_error 1%nat))] /\
  env (snd (Forward (Demo.message 7) Demo.three)) = 10.
Proof.
  apply (Forward_stops_at_first_failure (Demo.message 7) Demo.three
           1%nat 1%nat 5 10 (collaborator_error 1%nat));
    reflexivity.
Defined.

Lemma Forward_all_accept_witness :
  (fst (Forward (Demo.message 7) Demo.two) = Returns None /\
   calls (snd (Forward (Demo.message 7) Demo.two)) =
     [Process_call 0%nat 7%nat None; Process_call 2%nat 7%nat None] /\
   env (snd (Forward (Demo.message 7) Demo.two)) = 10) /\
  (exists e' : Z,
      accept_all [0; 2]%nat (Demo.message 7) 0 = Some e' /\
      calls (snd (Forward (Demo.message 7) Demo.two)) =
        [Process_call 0%nat 7%nat None; Process_call 2%nat 7%nat None]).
Proof.
  split.
  - apply (proj1 (Forward_all_accept (Demo.message 7) Demo.two) 10).
    reflexivity.
  - apply (proj2 (Forward_all_accept (Demo.message 7) Demo.two)).
    reflexivity.
Defined.

Lemma ForwardToChild_valid_index_witness :
  exists child : nat,
    [0; 1; 2]%nat !! 1%nat = Some child /\
    fst (ForwardToChild (Demo.message 7) 1 Demo.three) =
      Returns (fst (Demo.demo_Process child 7%nat 0)) /\
    calls (snd (ForwardToChild (Demo.message 7) 1 Demo.three)) =
      [Process_call child 7%nat (fst (Demo.demo_Process child 7%nat 0))] /\
    env (snd (ForwardToChild (Demo.message 7) 1 Demo.three)) =
      snd (Demo.demo_Process child 7%nat 0).
Proof.
  apply (ForwardToChild_valid_index (Demo.message 7) 1 Demo.three).
  simpl. lia.
Defined.


Lemma failure_returned_verbatim_witness :
  fst (serve (Commit_req (Demo.message 2)) Demo.two) =
    Returns (Some (collaborator_error 13%nat)) /\
  @nil (@event Demo.demo) = [] /\
  Forall succeeded
    [@Commit_call Demo.demo 10%nat 100%nat None;
     @Commit_call Demo.demo 20%nat 200%nat None].
Proof.
  apply (failure_returned_verbatim (Commit_req (Demo.message 2)) Demo.two
           [@Commit_call Demo.demo 10%nat 100%nat None;
            @Commit_call Demo.demo 20%nat 200%nat None] []
           (@Commit_call Demo.demo 13%nat 7%nat
              (Some (collaborator_error 13%nat)))
           (collaborator_error 13%nat)).
  - vm_compute. reflexivity.
  - reflexivity.
Defined.


Lemma children_fixed_duration_monotone_witness :
  children
    (pipe (perform_all
             [Route (Forward_req (Demo.message 7)); Call_Duration;
              Route (Commit_req (Demo.message 2))]
             Demo.three)) = [0; 1; 2]%nat /\
  0 <= duration
         (pipe (perform_all
                  [Route (Forward_req (Demo.message 7)); Call_Duration;
                   Route (Commit_req (Demo.message 2))]
                  Demo.three)) /\
  duration
    (pipe (perform Call_Reset
             (perform_all
                [Route (Forward_req (Demo.message 7)); Call_Duration;
                 Route (Commit_req (Demo.message 2))]
                Demo.three))) = 0.
Proof.
  destruct (children_fixed_duration_monotone Demo.three [0; 1; 2]%nat 0 []
              [Route (Forward_req (Demo.message 7)); Call_Duration;
               Route (Commit_req (Demo.message 2))]
              Call_Reset)
    as (Hchildren & _ & Hpos & _ & Hreset).
  split; [exact Hchildren |].
  split; [exact Hpos |].
  exact (Hreset eq_refl).
Defined.



Lemma returned_failure_has_an_origin_witness :
  (exists (pre : list event) (failed : event),
      new_calls Demo.three
        (snd (serve (Forward_req (Demo.message 7)) Demo.three)) =
        pre ++ [failed] /\
      event_ret failed = Some (collaborator_error 1%nat) /\
      Forall succeeded pre) \/
  (exists (msg : Message) (index : Z),
      Forward_req (Demo.message 7) = ForwardToChild_req msg index /\
      Z.of_nat (length (children (pipe Demo.three))) <= index /\
      collaborator_error 1%nat = out_of_bounds /\
      new_calls Demo.three
        (snd (serve (Forward_req (Demo.message 7)) Demo.three)) = []).
Proof.
  apply (returned_failure_has_an_origin (Forward_req (Demo.message 7))
           Demo.three (collaborator_error 1%nat)).
  reflexivity.
Defined.

Lemma Commit_nil_acknowledges_all_witness :
  new_calls Demo.two (snd (Commit (Demo.message 1) Demo.two)) ≡ₚ
  map acked (map_to_list (Metadata (Demo.message 1))).
Proof.
  apply (Commit_nil_acknowledges_all (Demo.message 1) Demo.two).
  reflexivity.
Defined.
